(** * The non-centered reparametrization of [docs/advanced/reparametrization.ipynb]

    The notebook contains two pieces of numerical code:

    - [neals_funnel_likelihood], the joint density of the simplified
      Neal's funnel (cell 7), and
    - the hierarchical ice-cream-shop model (cell 27), whose deterministic
      node [logit_p_shop] is the non-centered transform
      [raw * scale[owner_idx] + mean[owner_idx]], followed by the
      inverse-logit that feeds the Binomial likelihood.

    Arrays are modelled as scalars or one-dimensional vectors combined
    under NumPy broadcasting; IEEE doubles are idealised as real numbers,
    and a NaN result as the absence of a value. *)

From Stdlib Require Import Reals Lra ZArith Lia ClassicalEpsilon.
From stdpp Require Import base list sorting gmap.

Open Scope R_scope.

(** ** Errors of the array layer and of the specification's taxonomy *)

Inductive error : Type :=
  | ShapeError                (* operands could not be broadcast together *)
  | IndexError                (* index out of bounds *)
  | NameError                 (* name is not defined *)
  | TypeError                 (* operand of the wrong kind *)
  | InvalidParameterError     (* taxonomy of the specification *)
  | DivisionUndefinedError.   (* taxonomy of the specification *)

Inductive result (A : Type) : Type :=
  | Ok (a : A)
  | Raise (e : error).

Arguments Ok {A} a.
Arguments Raise {A} e.

#[global] Instance result_ret : MRet result := fun A a => Ok a.

#[global] Instance result_bind : MBind result := fun A B k m =>
  match m with
  | Ok a => k a
  | Raise e => Raise e
  end.

#[global] Instance result_fmap : FMap result := fun A B f m =>
  match m with
  | Ok a => Ok (f a)
  | Raise e => Raise e
  end.

(** A missing key of a lookup becomes the given exception. *)
Definition or_raise {A : Type} (e : error) (o : option A) : result A :=
  match o with
  | Some a => Ok a
  | None => Raise e
  end.

(** ** Arrays *)

Inductive tensor (A : Type) : Type :=
  | Scalar (x : A)
  | Vector (xs : list A).

Arguments Scalar {A} x.
Arguments Vector {A} xs.

Definition elements {A : Type} (t : tensor A) : list A :=
  match t with
  | Scalar x => [x]
  | Vector xs => xs
  end.


Fixpoint zip_with_eq {A B C : Type} (f : A -> B -> C)
    (xs : list A) (ys : list B) : list C :=
  match xs, ys with
  | x :: xs', y :: ys' => f x y :: zip_with_eq f xs' ys'
  | _, _ => []
  end.

(** Binary element-wise operation under NumPy broadcasting: a scalar or a
    vector of length one is stretched to the length of the other operand;
    two vectors of different lengths, neither of them one, do not
    broadcast. *)
Definition broadcast2 {A B C : Type} (f : A -> B -> C)
    (a : tensor A) (b : tensor B) : result (tensor C) :=
  match a, b with
  | Scalar x, Scalar y => Ok (Scalar (f x y))
  | Scalar x, Vector ys => Ok (Vector (map (f x) ys))
  | Vector xs, Scalar y => Ok (Vector (map (fun x => f x y) xs))
  | Vector xs, Vector ys =>
      if Nat.eqb (length xs) (length ys) then Ok (Vector (zip_with_eq f xs ys))
      else match xs, ys with
           | [x], _ => Ok (Vector (map (f x) ys))
           | _, [y] => Ok (Vector (map (fun x => f x y) xs))
           | _, _ => Raise ShapeError
           end
  end.

Definition tmul : tensor R -> tensor R -> result (tensor R) := broadcast2 Rmult.
Definition tadd : tensor R -> tensor R -> result (tensor R) := broadcast2 Rplus.

(** ** The forward transform

    [raw * scale + loc], in the evaluation order of the expression of
    cell 27: the product first, then the sum. *)
Definition transform (raw loc scale : tensor R) : result (tensor R) :=
  p ← tmul raw scale;
  tadd p loc.

(** ** Indexing

    [a[i]] for a Python integer: a negative index counts from the end,
    anything outside [-n, n) is an [IndexError]. *)
Definition getitem {A : Type} (xs : list A) (i : Z) : result A :=
  let n := Z.of_nat (length xs) in
  let j := if (i <? 0)%Z then (i + n)%Z else i in
  if ((0 <=? j)%Z && (j <? n)%Z)%bool
  then or_raise IndexError (xs !! Z.to_nat j)
  else Raise IndexError.

(** [a[idx]] for an integer array [idx] (advanced indexing): the result
    has the shape of [idx]; a zero-dimensional array cannot be indexed. *)
Definition take {A : Type} (a : tensor A) (idx : list Z) : result (tensor A) :=
  match a with
  | Scalar _ => Raise IndexError
  | Vector xs => Vector <$> mapM (getitem xs) idx
  end.

(** ** The hierarchical model of cell 27 *)

(** [data["owner_idx"].unique()]: the distinct values, in order of first
    appearance. *)
Fixpoint unique_from (seen : list Z) (l : list Z) : list Z :=
  match l with
  | [] => []
  | x :: l' =>
      if existsb (Z.eqb x) seen then unique_from seen l'
      else x :: unique_from (x :: seen) l'
  end.

Definition unique (l : list Z) : list Z := unique_from [] l.

(** [n_owners = len(data["owner_idx"].unique())] *)
Definition n_owners (owner_idx : list Z) : nat := length (unique owner_idx).

(** [logit_p_shop_raw * logit_p_owner_scale[data["owner_idx"]]
     + logit_p_owner_mean[data["owner_idx"]]], evaluated left to right. *)
Definition logit_p_shop (logit_p_shop_raw logit_p_owner_scale
    logit_p_owner_mean : tensor R) (owner_idx : list Z) : result (tensor R) :=
  scale ← take logit_p_owner_scale owner_idx;
  prod ← tmul logit_p_shop_raw scale;
  mean ← take logit_p_owner_mean owner_idx;
  tadd prod mean.




(** ** Neal's funnel (cell 7) *)

(** The standard normal density of [scipy.stats.norm]:
    [exp(-x**2 / 2) / sqrt(2 * pi)]. *)
Definition norm_pdf_std (z : R) : R := exp (- z ^ 2 / 2) / sqrt (2 * PI).

(** [norm(loc, scale).pdf(x)]: the location-scale family; a scale that is
    not positive yields NaN, modelled as [None]. *)
Definition norm_pdf (loc scale x : R) : option R :=
  if Rlt_dec 0 scale
  then Some (norm_pdf_std ((x - loc) / scale) / scale)
  else None.


(** ** The transform as executed: arrays as objects of a store

    Python evaluates [raw * scale + loc] on array objects: each operator
    reads its two operands and returns a newly allocated array. *)

Inductive object : Type :=
  | RealArray (t : tensor R)
  | IntArray (idx : list Z).

(** Objects are addressed by their identity. *)
Definition alloc (h : gmap nat object) (o : object) : nat * gmap nat object :=
  let l := fresh (dom h) in (l, <[l := o]> h).

Definition read_real (h : gmap nat object) (l : nat) : result (tensor R) :=
  o ← or_raise NameError (h !! l);
  match o with
  | RealArray t => Ok t
  | IntArray _ => Raise TypeError
  end.

Definition read_int (h : gmap nat object) (l : nat) : result (list Z) :=
  o ← or_raise NameError (h !! l);
  match o with
  | IntArray idx => Ok idx
  | RealArray _ => Raise TypeError
  end.

Definition eval_binop (f : R -> R -> R) (h : gmap nat object) (la lb : nat)
    : result (nat * gmap nat object) :=
  a ← read_real h la;
  b ← read_real h lb;
  c ← broadcast2 f a b;
  Ok (alloc h (RealArray c)).

Definition eval_take (h : gmap nat object) (la li : nat)
    : result (nat * gmap nat object) :=
  a ← read_real h la;
  idx ← read_int h li;
  c ← take a idx;
  Ok (alloc h (RealArray c)).

Definition eval_transform (h : gmap nat object) (raw loc scale : nat)
    : result (nat * gmap nat object) :=
  '(p, h1) ← eval_binop Rmult h raw scale;
  eval_binop Rplus h1 p loc.

Definition eval_logit_p_shop (h : gmap nat object)
    (raw scale mean owner_idx : nat) : result (nat * gmap nat object) :=
  '(s, h1) ← eval_take h scale owner_idx;
  '(p, h2) ← eval_binop Rmult h1 raw s;
  '(m, h3) ← eval_take h2 mean owner_idx;
  eval_binop Rplus h3 p m.

(** The array an evaluation returns. *)
Definition returned (r : result (nat * gmap nat object)) : result (tensor R) :=
  '(l, h) ← r; read_real h l.

(** ** The inverse transform *)

Definition Reqb (x y : R) : bool := if Req_dec_T x y then true else false.

Definition has_zero (scale : tensor R) : bool :=
  existsb (Reqb 0) (elements scale).

Definition tsub : tensor R -> tensor R -> result (tensor R) := broadcast2 Rminus.
Definition tdiv : tensor R -> tensor R -> result (tensor R) := broadcast2 Rdiv.

(** Modelled from the spec: the inverse operation [untransform], which the
    notebook does not define.  Section 4.1 gives its computation,
    [raw = (effective - loc) / scale], its guarantee for every
    [scale != 0], and its error, [scale == 0] signals
    [DivisionUndefinedError]; section 7 adds that the error is surfaced
    immediately. *)
Definition untransform (effective loc scale : tensor R) : result (tensor R) :=
  if has_zero scale then Raise DivisionUndefinedError
  else d ← tsub effective loc; tdiv d scale.

(** ** Shapes and element-wise reading of arrays

    The vocabulary in which the properties below are stated. *)

(** [None] is the shape [()] of a scalar, [Some n] the shape [(n,)]. *)
Definition shape {A : Type} (t : tensor A) : option nat :=
  match t with
  | Scalar _ => None
  | Vector xs => Some (length xs)
  end.

(** The broadcasting rule on shapes. *)
Definition broadcast_shape (s1 s2 : option nat) : result (option nat) :=
  match s1, s2 with
  | None, s | s, None => Ok s
  | Some n, Some m =>
      if Nat.eqb n m then Ok (Some n)
      else if Nat.eqb n 1 then Ok (Some m)
      else if Nat.eqb m 1 then Ok (Some n)
      else Raise ShapeError
  end.

(** The element an array contributes at position [i] of a broadcast
    operation: a scalar or a vector of length one contributes its single
    element everywhere. *)
Definition bnth {A : Type} (d : A) (t : tensor A) (i : nat) : A :=
  match t with
  | Scalar x => x
  | Vector [x] => x
  | Vector xs => nth i xs d
  end.

(** Number of positions of a shape. *)
Definition size (s : option nat) : nat :=
  match s with
  | None => 1%nat
  | Some n => n
  end.

(** The shape of [raw * scale + loc]. *)
Definition transform_shape (raw loc scale : tensor R) : result (option nat) :=
  s ← broadcast_shape (shape raw) (shape scale);
  broadcast_shape s (shape loc).

(** [(a == b).all()] *)
Definition array_equal (a b : tensor R) : result bool :=
  m ← broadcast2 Reqb a b;
  Ok (forallb (fun t : bool => t) (elements m)).

(** Every element satisfies [P]. *)
Definition tforall {A : Type} (P : A -> Prop) (t : tensor A) : Prop :=
  Forall P (elements t).

(** ** Distributions

    [pm.Normal("logit_p_shop_raw", mu=0, sigma=1)] declares the raw
    variable standard normal.  The law of a real random variable gives the
    probability of every event, a set of reals. *)

(** The transform of one draw, with scalar location and scale. *)
Definition transform_scalar (raw loc scale : R) : R :=
  match transform (Scalar raw) (Scalar loc) (Scalar scale) with
  | Ok t => bnth 0 t 0
  | Raise _ => 0
  end.

(** The law of [g X] for [X] of law [P]: an event has the probability of
    its preimage. *)
Definition law_of_image (g : R -> R) (P : (R -> Prop) -> R) : (R -> Prop) -> R :=
  fun A => P (fun x => A (g x)).

(** The density of the normal distribution N(mu, sigma). *)
Definition normal_density (mu sigma x : R) : R :=
  / (sigma * sqrt (2 * PI)) * exp (- (x - mu) ^ 2 / (2 * sigma ^ 2)).

(** [P] is the law N(mu, sigma): the probability of every interval
    [[a, b]] is the integral of the density over it, that is [F b - F a]
    for an antiderivative [F] of the density on the interval. *)
Definition is_normal (mu sigma : R) (P : (R -> Prop) -> R) : Prop :=
  forall (A : R -> Prop) (a b : R),
    a <= b -> (forall x, A x <-> a <= x <= b) ->
    exists F : R -> R,
      (forall x, a <= x <= b -> derivable_pt_lim F x (normal_density mu sigma x))
      /\ P A = F b - F a.

(** Two laws give every interval the same probability. *)
Definition same_on_intervals (P Q : (R -> Prop) -> R) : Prop :=
  forall (A : R -> Prop) (a b : R),
    a <= b -> (forall x, A x <-> a <= x <= b) -> P A = Q A.

(** A law N(mu, sigma) to draw from directly: the Riemann integral of the
    density over the interval an event amounts to. *)
Definition integral_of (f : R -> R) (cont : continuity f) (a b : R) : R :=
  match Rle_dec a b with
  | left h => RiemannInt (continuity_implies_RiemannInt h (fun x _ => cont x))
  | right _ => 0
  end.

Definition interval_of (A : R -> Prop) : R * R :=
  epsilon (inhabits (0, 0))
    (fun ab => fst ab <= snd ab /\ forall x, A x <-> fst ab <= x <= snd ab).

Lemma continuity_normal_density (mu sigma : R) :
  continuity (normal_density mu sigma).
Proof. unfold normal_density. reg. Qed.

Definition normal_law (mu sigma : R) : (R -> Prop) -> R :=
  fun A =>
    integral_of (normal_density mu sigma) (continuity_normal_density mu sigma)
      (fst (interval_of A)) (snd (interval_of A)).

(** ** The rest of cells 27 and 28 *)

(** The index [a[i]] actually reads for a Python integer [i] and an array
    of length [n]: a negative [i] counts from the end. *)
Definition normalize_index (n : nat) (i : Z) : Z :=
  if (i <? 0)%Z then (i + Z.of_nat n)%Z else i.


(** [data["owner_idx"].sort_values()] *)
Definition sort_values (l : list Z) : list Z := merge_sort Z.le l.

(** [data["owner_idx"].sort_values().unique()], the coordinate labels
    cell 28 gives to the owner dimension of [p_owner],
    [logit_p_owner_mean] and [logit_p_owner_scale]. *)
Definition owner_coords (owner_idx : list Z) : list Z :=
  unique (sort_values owner_idx).

(** ** The contour grid of cell 8 *)





(** * Properties *)

(** ** Broadcasting *)

Lemma bnth_vector {A : Type} (d : A) (xs : list A) (i : nat) :
  (i < length xs)%nat -> bnth d (Vector xs) i = nth i xs d.
Proof.
  destruct xs as [|x [|y xs]]; cbn; try done.
  intros Hi. by replace i with 0%nat by lia.
Qed.

Section Broadcast.
Context {A B C : Type} (f : A -> B -> C) (da : A) (db : B) (dc : C).

Lemma nth_zip_with_eq (xs : list A) (ys : list B) (i : nat) :
  length xs = length ys -> (i < length xs)%nat ->
  nth i (zip_with_eq f xs ys) dc = f (nth i xs da) (nth i ys db).
Proof.
  revert ys i. induction xs as [|x xs IH]; intros [|y ys] [|i]; cbn;
    try lia; try done.
  intros Hlen Hi. apply IH; lia.
Qed.

Lemma length_zip_with_eq (xs : list A) (ys : list B) :
  length xs = length ys -> length (zip_with_eq f xs ys) = length xs.
Proof.
  revert ys. induction xs as [|x xs IH]; intros [|y ys]; cbn; try done.
  intros Hlen. f_equal. apply IH. lia.
Qed.

Lemma broadcast2_shape (a : tensor A) (b : tensor B) :
  shape <$> broadcast2 f a b = broadcast_shape (shape a) (shape b).
Proof.
  destruct a as [x|xs], b as [y|ys]; cbn; try by rewrite ?length_map.
  destruct (Nat.eqb_spec (length xs) (length ys)) as [Hlen|Hlen]; cbn.
  { by rewrite length_zip_with_eq. }
  destruct xs as [|x [|x' xs]], ys as [|y [|y' ys]]; cbn in *;
    try done; by rewrite ?length_map.
Qed.

Lemma bnth_map_l (x : A) (ys : list B) (i : nat) :
  (i < length ys)%nat ->
  bnth dc (Vector (map (f x) ys)) i = f x (bnth db (Vector ys) i).
Proof.
  intros Hi. rewrite !bnth_vector by (by rewrite ?length_map).
  rewrite (nth_indep _ dc (f x db)) by (by rewrite length_map).
  by rewrite map_nth.
Qed.

Lemma bnth_map_r (xs : list A) (y : B) (i : nat) :
  (i < length xs)%nat ->
  bnth dc (Vector (map (fun x => f x y) xs)) i = f (bnth da (Vector xs) i) y.
Proof.
  intros Hi. rewrite !bnth_vector by (by rewrite ?length_map).
  rewrite (nth_indep _ dc (f da y)) by (by rewrite length_map).
  by rewrite (map_nth (fun x => f x y)).
Qed.

Lemma broadcast2_bnth (a : tensor A) (b : tensor B) (c : tensor C) (i : nat) :
  broadcast2 f a b = Ok c -> (i < size (shape c))%nat ->
  bnth dc c i = f (bnth da a i) (bnth db b i).
Proof.
  destruct a as [x|xs], b as [y|ys]; unfold broadcast2.
  - intros [= <-]. done.
  - intros [= <-]. unfold shape, size. rewrite length_map.
    apply bnth_map_l.
  - intros [= <-]. unfold shape, size. rewrite length_map.
    apply bnth_map_r.
  - destruct (Nat.eqb_spec (length xs) (length ys)) as [Hlen|Hlen].
    + intros [= <-]. unfold shape, size.
      rewrite length_zip_with_eq by done. intros Hi.
      rewrite !bnth_vector by (rewrite ?length_zip_with_eq; lia).
      by apply nth_zip_with_eq.
    + destruct xs as [|x [|x' xs]].
      * destruct ys as [|y [|y' ys]]; try done.
        intros [= <-]; cbn. lia.
      * cbv iota. intros [= <-]. unfold shape, size.
        rewrite length_map. intros Hi. by rewrite bnth_map_l.
      * destruct ys as [|y [|y' ys]]; try done.
        cbv iota. intros [= <-]. unfold shape, size. intros Hi.
        apply (bnth_map_r (x :: x' :: xs) y i).
        cbn [length] in *. rewrite length_map in Hi. lia.
Qed.

Lemma broadcast2_defined (a : tensor A) (b : tensor B) (s : option nat) :
  broadcast_shape (shape a) (shape b) = Ok s ->
  exists c, broadcast2 f a b = Ok c /\ shape c = s.
Proof.
  rewrite <- broadcast2_shape.
  destruct (broadcast2 f a b) as [c|e]; cbn; [|done].
  intros [= <-]. by exists c.
Qed.
End Broadcast.

Lemma tensor_ext {A : Type} (d : A) (a b : tensor A) :
  shape a = shape b ->
  (forall i, (i < size (shape a))%nat -> bnth d a i = bnth d b i) ->
  a = b.
Proof.
  destruct a as [x|xs], b as [y|ys]; unfold shape, size; try done.
  - intros _ H. f_equal. apply (H 0%nat). lia.
  - intros [= Hlen] H. f_equal.
    apply (nth_ext _ _ d d Hlen). intros i Hi.
    specialize (H i Hi).
    by rewrite !bnth_vector in H by lia.
Qed.

Lemma broadcast_shape_size (s1 s2 s : option nat) :
  broadcast_shape s1 s2 = Ok s ->
  (size s1 = size s \/ size s1 = 1%nat) /\ (size s2 = size s \/ size s2 = 1%nat).
Proof.
  destruct s1 as [n|], s2 as [m|]; cbn; try (intros [= <-]; cbn; by auto).
  destruct (Nat.eqb_spec n m) as [->|Hnm]; [intros [= <-]; cbn; by auto|].
  destruct (Nat.eqb_spec n 1) as [->|Hn]; [intros [= <-]; cbn; by auto|].
  destruct (Nat.eqb_spec m 1) as [->|Hm]; [intros [= <-]; cbn; by auto|done].
Qed.

Lemma broadcast_shape_size_1 (s1 s2 s : option nat) :
  broadcast_shape s1 s2 = Ok s -> size s = 1%nat ->
  size s1 = 1%nat /\ size s2 = 1%nat.
Proof.
  destruct s1 as [n|], s2 as [m|]; cbn; try (intros [= <-]; cbn; by auto).
  destruct (Nat.eqb_spec n m) as [->|Hnm]; [intros [= <-]; cbn; by auto|].
  destruct (Nat.eqb_spec n 1) as [->|Hn]; [intros [= <-]; cbn; lia|].
  destruct (Nat.eqb_spec m 1) as [->|Hm]; [intros [= <-]; cbn; lia|done].
Qed.

Lemma bnth_size_1 {A : Type} (d : A) (t : tensor A) (i : nat) :
  size (shape t) = 1%nat -> bnth d t i = bnth d t 0.
Proof. destruct t as [x|[|x [|y xs]]]; cbn; done. Qed.

(** Element-wise reading of a broadcast operation, at every position of
    any shape the result may later be stretched to. *)
Lemma broadcast2_bnth_stretch {A B C : Type} (f : A -> B -> C)
    (da : A) (db : B) (dc : C) (a : tensor A) (b : tensor B) (c : tensor C)
    (i : nat) :
  broadcast2 f a b = Ok c ->
  (i < size (shape c))%nat \/ size (shape c) = 1%nat ->
  bnth dc c i = f (bnth da a i) (bnth db b i).
Proof.
  intros Hc [Hi|H1]; [by apply broadcast2_bnth|].
  pose proof (broadcast2_shape f a b) as Hs. rewrite Hc in Hs. cbn in Hs.
  symmetry in Hs. destruct (broadcast_shape_size_1 _ _ _ Hs H1) as [Ha Hb].
  rewrite (bnth_size_1 dc c i), (bnth_size_1 da a i), (bnth_size_1 db b i)
    by done.
  apply broadcast2_bnth; [done|lia].
Qed.

(** ** The forward transform *)

Lemma transform_defined (raw loc scale : tensor R) (s : option nat) :
  transform_shape raw loc scale = Ok s ->
  exists eff, transform raw loc scale = Ok eff /\ shape eff = s /\
    forall i, (i < size s)%nat ->
      bnth 0 eff i = bnth 0 raw i * bnth 0 scale i + bnth 0 loc i.
Proof.
  unfold transform_shape, transform, tmul, tadd.
  destruct (broadcast_shape (shape raw) (shape scale)) as [s1|e] eqn:Hs1;
    [cbn|done].
  intros Hs.
  destruct (broadcast2_defined Rmult raw scale s1 Hs1) as (p & Hp & Hps).
  rewrite Hp; cbn. rewrite <- Hps in Hs.
  destruct (broadcast2_defined Rplus p loc s Hs) as (eff & Heff & Heffs).
  exists eff. split; [done|]. split; [done|].
  intros i Hi.
  rewrite (broadcast2_bnth Rplus 0 0 0 p loc eff i Heff) by (by rewrite Heffs).
  f_equal.
  apply (broadcast2_bnth_stretch Rmult 0 0 0 raw scale p i Hp).
  destruct (broadcast_shape_size _ _ _ Hs) as [[Heq|H1] _]; [left; lia|by right].
Qed.

Lemma transform_bnth (raw loc scale eff : tensor R) (i : nat) :
  transform raw loc scale = Ok eff -> (i < size (shape eff))%nat ->
  bnth 0 eff i = bnth 0 raw i * bnth 0 scale i + bnth 0 loc i.
Proof.
  intros Heff Hi.
  assert (transform_shape raw loc scale = Ok (shape eff)) as Hs.
  { revert Heff. unfold transform, transform_shape, tmul, tadd.
    rewrite <- (broadcast2_shape Rmult).
    destruct (broadcast2 Rmult raw scale) as [p|e]; [cbn|done].
    intros Heff. by rewrite <- (broadcast2_shape Rplus), Heff. }
  destruct (transform_defined _ _ _ _ Hs) as (eff' & Heff' & _ & Hnth).
  rewrite Heff in Heff'. injection Heff' as <-. by apply Hnth.
Qed.

(** The deterministic node of cell 27 is the transform of the raw draws,
    with the owner's mean as location and the owner's scale as scale. *)
Lemma logit_p_shop_transform (raw scale mean sc mn : tensor R)
    (owner_idx : list Z) :
  take scale owner_idx = Ok sc ->
  take mean owner_idx = Ok mn ->
  logit_p_shop raw scale mean owner_idx = transform raw mn sc.
Proof.
  intros Hsc Hmn. unfold logit_p_shop, transform. rewrite Hsc, Hmn. cbn.
  by destruct (tmul raw sc).
Qed.

(** C1. Whenever the three shapes broadcast, [transform raw loc scale]
    returns the array of the broadcast shape whose element at every
    position is [raw * scale + loc]; in particular
    [transform([1,1,1], loc=[0,1,2], scale=[1,1,1]) = [1,2,3]]. *)
Theorem transform_elementwise :
  (forall (raw loc scale : tensor R) (s : option nat),
     transform_shape raw loc scale = Ok s ->
     exists eff, transform raw loc scale = Ok eff /\ shape eff = s /\
       forall i, (i < size s)%nat ->
         bnth 0 eff i = bnth 0 raw i * bnth 0 scale i + bnth 0 loc i)
  /\ transform (Vector [1; 1; 1]) (Vector [0; 1; 2]) (Vector [1; 1; 1])
     = Ok (Vector [1; 2; 3]).
Proof.
  split; [exact transform_defined|].
  cbn. repeat f_equal; lra.
Qed.

Lemma transform_elementwise_witness :
  exists eff, transform (Vector [2; 3]) (Scalar 1) (Vector [10]) = Ok eff /\
    shape eff = Some 2%nat /\
    forall i, (i < 2)%nat ->
      bnth 0 eff i
      = bnth 0 (Vector [2; 3]) i * bnth 0 (Vector [10]) i + bnth 0 (Scalar 1) i.
Proof.
  apply (proj1 transform_elementwise (Vector [2; 3]) (Scalar 1) (Vector [10])
           (Some 2%nat)).
  reflexivity.
Defined.

(** The only exception of the transform is the array layer's. *)
Lemma transform_raises (raw loc scale : tensor R) (e : error) :
  transform raw loc scale = Raise e ->
  e = ShapeError /\ transform_shape raw loc scale = Raise ShapeError.
Proof.
  unfold transform, transform_shape, tmul, tadd.
  rewrite <- (broadcast2_shape Rmult).
  destruct (broadcast2 Rmult raw scale) as [p|e1] eqn:Hp; cbn.
  - rewrite <- (broadcast2_shape Rplus).
    destruct p as [x|xs], loc as [l|ls]; cbn; try done.
    repeat case_match; try done; by intros [= <-].
  - revert Hp. destruct raw as [r|rs], scale as [c|cs]; cbn; try done.
    repeat case_match; try done; by intros [= <-] [= <-].
Qed.

(** C3, as the notebook has it. The transform does not inspect the sign of
    [scale]: it never raises [InvalidParameterError]; it returns the
    element-wise [raw * scale + loc] whenever the shapes broadcast and
    raises the array layer's shape error otherwise; in particular
    [transform([0.5], 0.0, -1.0)] returns [[-0.5]]. *)
Theorem transform_does_not_validate_scale :
  (forall raw loc scale : tensor R,
     transform raw loc scale <> Raise InvalidParameterError /\
     match transform raw loc scale with
     | Ok eff =>
         forall i, (i < size (shape eff))%nat ->
           bnth 0 eff i = bnth 0 raw i * bnth 0 scale i + bnth 0 loc i
     | Raise e =>
         e = ShapeError /\ transform_shape raw loc scale = Raise ShapeError
     end)
  /\ transform (Vector [1 / 2]) (Scalar 0) (Scalar (-1))
     = Ok (Vector [- (1 / 2)]).
Proof.
  split.
  - intros raw loc scale. split.
    + intros H. by destruct (transform_raises _ _ _ _ H) as [[=] _].
    + destruct (transform raw loc scale) as [eff|e] eqn:H.
      * intros i Hi. by apply transform_bnth.
      * by apply transform_raises.
  - cbn. repeat f_equal; lra.
Qed.

(** C3, counterexample: on the specification's own input, with the
    negative scale [-1.0], the transform returns a value instead of
    raising [InvalidParameterError]. *)
Lemma transform_negative_scale_returns :
  tforall (fun c => c <= 0) (Scalar (-1)) /\
  transform (Vector [1 / 2]) (Scalar 0) (Scalar (-1))
  <> Raise InvalidParameterError.
Proof.
  split.
  - repeat constructor. lra.
  - cbn. discriminate.
Qed.

(** ** Comparing arrays, and shapes that absorb *)

Ltac shape_cases :=
  repeat match goal with
    | s : option nat |- _ => destruct s
    | |- context [Nat.eqb ?n ?m] => destruct (Nat.eqb_spec n m)
    | H : context [Nat.eqb ?n ?m] |- _ => destruct (Nat.eqb_spec n m)
    end;
  cbn in *; try congruence; try (f_equal; f_equal; lia).

Lemma broadcast_shape_absorb_l (s1 s2 s : option nat) :
  broadcast_shape s1 s2 = Ok s -> broadcast_shape s s1 = Ok s.
Proof.
  unfold broadcast_shape. intros H. shape_cases;
    injection H as <-; shape_cases.
Qed.

Lemma broadcast_shape_absorb_r (s1 s2 s : option nat) :
  broadcast_shape s1 s2 = Ok s -> broadcast_shape s s2 = Ok s.
Proof.
  unfold broadcast_shape. intros H. shape_cases;
    injection H as <-; shape_cases.
Qed.

Lemma broadcast_shape_absorb_trans (s s' c l : option nat) :
  broadcast_shape s c = Ok s -> broadcast_shape s l = Ok s' ->
  broadcast_shape s' c = Ok s'.
Proof.
  unfold broadcast_shape. intros H1 H2. shape_cases;
    try injection H1 as H1; try injection H2 as H2; subst; shape_cases.
Qed.

Lemma Reqb_true (x y : R) : Reqb x y = true <-> x = y.
Proof. unfold Reqb. destruct (Req_dec_T x y); split; congruence. Qed.

Lemma forallb_elements (m : tensor bool) :
  (forall i, (i < size (shape m))%nat -> bnth false m i = true) ->
  forallb (fun t : bool => t) (elements m) = true.
Proof.
  destruct m as [b|bs]; unfold shape, size.
  - intros H. specialize (H 0%nat). cbn in *. rewrite H; [done|lia].
  - intros H. cbn [elements]. apply forallb_forall. intros b Hb.
    destruct (In_nth _ _ false Hb) as (i & Hi & <-).
    rewrite <- (bnth_vector false) by done. by apply H.
Qed.

Lemma array_equal_intro (a b : tensor R) (s : option nat) :
  broadcast_shape (shape a) (shape b) = Ok s ->
  (forall i, (i < size s)%nat -> bnth 0 a i = bnth 0 b i) ->
  array_equal a b = Ok true.
Proof.
  intros Hs Hnth. unfold array_equal.
  destruct (broadcast2_defined Reqb a b s Hs) as (m & Hm & Hms).
  rewrite Hm; cbn. f_equal. apply forallb_elements. intros i Hi.
  rewrite (broadcast2_bnth Reqb 0 0 false a b m i Hm Hi).
  apply Reqb_true, Hnth. by rewrite <- Hms.
Qed.

(** ** Identity at [raw = 0] *)

(** C6. [transform(0, loc, scale)] equals [loc] exactly, for every scale
    (valid or not) whose shape broadcasts with that of [loc]: the result
    compares equal to [loc] at every position, and is [loc] itself when
    [loc] already has the broadcast shape. *)
Theorem transform_zero_raw (loc scale : tensor R) (s : option nat) :
  transform_shape (Scalar 0) loc scale = Ok s ->
  exists eff, transform (Scalar 0) loc scale = Ok eff /\
    array_equal eff loc = Ok true /\
    (shape loc = s -> eff = loc).
Proof.
  intros Hs.
  destruct (transform_defined _ _ _ _ Hs) as (eff & Heff & Heffs & Hnth).
  assert (forall i, (i < size s)%nat -> bnth 0 eff i = bnth 0 loc i) as Heq.
  { intros i Hi. rewrite (Hnth i Hi). cbn [bnth]. lra. }
  exists eff. split; [done|]. split.
  - apply (array_equal_intro eff loc s); [|done].
    rewrite Heffs. revert Hs. unfold transform_shape. cbn.
    apply broadcast_shape_absorb_r.
  - intros Hloc. apply (tensor_ext 0); [congruence|].
    intros i Hi. apply Heq. by rewrite <- Heffs.
Qed.

Lemma transform_zero_raw_witness :
  exists eff, transform (Scalar 0) (Vector [5; 7]) (Scalar 2) = Ok eff /\
    array_equal eff (Vector [5; 7]) = Ok true /\
    (shape (Vector [5; 7]) = Some 2%nat -> eff = Vector [5; 7]).
Proof.
  apply (transform_zero_raw (Vector [5; 7]) (Scalar 2) (Some 2%nat)).
  reflexivity.
Defined.

(** ** The inverse transform *)

Lemma has_zero_false_bnth (t : tensor R) (i : nat) :
  has_zero t = false ->
  (i < size (shape t))%nat \/ size (shape t) = 1%nat ->
  bnth 0 t i <> 0.
Proof.
  unfold has_zero. intros Hz Hi Heq.
  assert (In (bnth 0 t i) (elements t)) as Hin.
  { destruct t as [x|xs]; [by left|]. cbn [elements].
    destruct Hi as [Hi|H1].
    - rewrite bnth_vector by done. by apply nth_In.
    - destruct xs as [|x [|y xs]]; try done. by left. }
  assert (existsb (Reqb 0) (elements t) = true) as Hex; [|congruence].
  apply existsb_exists. exists (bnth 0 t i). split; [done|].
  by apply Reqb_true.
Qed.

Lemma transform_inv (raw loc scale eff : tensor R) :
  transform raw loc scale = Ok eff ->
  exists p, broadcast2 Rmult raw scale = Ok p /\ broadcast2 Rplus p loc = Ok eff /\
    broadcast_shape (shape raw) (shape scale) = Ok (shape p) /\
    broadcast_shape (shape p) (shape loc) = Ok (shape eff).
Proof.
  unfold transform, tmul, tadd. intros H.
  destruct (broadcast2 Rmult raw scale) as [p|e] eqn:Hp; [cbn in H|done].
  exists p. split; [done|]. split; [done|]. split.
  - by rewrite <- (broadcast2_shape Rmult), Hp.
  - by rewrite <- (broadcast2_shape Rplus), H.
Qed.

(** C4. For every scale without a zero element, the inverse applied to
    the result of the forward transform is defined and gives back [raw]:
    equal to [raw] at every position, and [raw] itself when [raw] already
    has the broadcast shape. *)
Theorem untransform_transform (raw loc scale eff : tensor R) :
  has_zero scale = false ->
  transform raw loc scale = Ok eff ->
  exists back, untransform eff loc scale = Ok back /\
    array_equal back raw = Ok true /\
    (shape raw = shape eff -> back = raw).
Proof.
  intros Hz Heff.
  destruct (transform_inv _ _ _ _ Heff) as (p & Hp & Hpl & Hs1 & Hs).
  pose proof (broadcast_shape_absorb_r _ _ _ Hs) as Hsl.
  pose proof (broadcast_shape_absorb_trans _ _ _ _
                (broadcast_shape_absorb_r _ _ _ Hs1) Hs) as Hsc.
  pose proof (broadcast_shape_absorb_trans _ _ _ _
                (broadcast_shape_absorb_l _ _ _ Hs1) Hs) as Hsr.
  destruct (broadcast2_defined Rminus eff loc _ Hsl) as (d & Hd & Hds).
  rewrite <- Hds in Hsc.
  destruct (broadcast2_defined Rdiv d scale _ Hsc) as (back & Hback & Hbs).
  rewrite Hds in Hbs.
  assert (forall i, (i < size (shape eff))%nat -> bnth 0 back i = bnth 0 raw i)
    as Hnth.
  { intros i Hi.
    rewrite (broadcast2_bnth Rdiv 0 0 0 d scale back i Hback)
      by (by rewrite Hbs).
    rewrite (broadcast2_bnth Rminus 0 0 0 eff loc d i Hd) by (by rewrite Hds).
    rewrite (transform_bnth raw loc scale eff i Heff Hi).
    assert (bnth 0 scale i <> 0) as Hc.
    { apply has_zero_false_bnth; [done|].
      destruct (broadcast_shape_size _ _ _ Hs1) as [_ [Hc|Hc]]; [|by right].
      destruct (broadcast_shape_size _ _ _ Hs) as [[Hp'|Hp'] _].
      - left. lia.
      - right. lia. }
    by field. }
  exists back. split; [|split].
  - unfold untransform, tsub, tdiv. rewrite Hz, Hd. cbn. done.
  - apply (array_equal_intro back raw (shape eff)); [by rewrite Hbs|done].
  - intros Hshape. apply (tensor_ext 0); [congruence|].
    intros i Hi. apply Hnth. by rewrite <- Hbs.
Qed.

Lemma untransform_transform_witness :
  exists back,
    untransform (Vector [7; 11]) (Scalar 1) (Vector [-2; 2]) = Ok back /\
    array_equal back (Vector [-3; 5]) = Ok true /\
    (shape (Vector [-3; 5]) = shape (Vector [7; 11]) -> back = Vector [-3; 5]).
Proof.
  apply (untransform_transform (Vector [-3; 5]) (Scalar 1) (Vector [-2; 2])).
  - unfold has_zero. cbn.
    destruct (Reqb 0 (-2)) eqn:H1; [apply Reqb_true in H1; lra|].
    destruct (Reqb 0 2) eqn:H2; [apply Reqb_true in H2; lra|].
    reflexivity.
  - cbn. repeat f_equal; lra.
Defined.

(** C5. Modelled from the spec: with a zero anywhere in [scale], and in
    particular with [scale == 0], [untransform] raises
    [DivisionUndefinedError] for every [effective] and [loc], before
    anything else is looked at, and returns no value at all. *)
Theorem untransform_zero_scale (effective loc scale : tensor R) :
  has_zero scale = true ->
  untransform effective loc scale = Raise DivisionUndefinedError /\
  forall v, untransform effective loc scale <> Ok v.
Proof.
  intros Hz. unfold untransform. rewrite Hz. done.
Qed.

Lemma untransform_zero_scale_witness :
  untransform (Vector [3; 4]) (Vector [1; 2; 3]) (Scalar 0)
  = Raise DivisionUndefinedError /\
  forall v, untransform (Vector [3; 4]) (Vector [1; 2; 3]) (Scalar 0) <> Ok v.
Proof.
  apply (untransform_zero_scale (Vector [3; 4]) (Vector [1; 2; 3]) (Scalar 0)).
  unfold has_zero. cbn.
  destruct (Reqb 0 0) eqn:H; [reflexivity|].
  assert (Reqb 0 0 = true) by (by apply Reqb_true). congruence.
Defined.

(** ** Indexing by [owner_idx] *)

Lemma getitem_in_bounds {A : Type} (d : A) (xs : list A) (i : Z) :
  (0 <= i < Z.of_nat (length xs))%Z ->
  getitem xs i = Ok (nth (Z.to_nat i) xs d).
Proof.
  intros Hi. unfold getitem.
  destruct (Z.ltb_spec i 0) as [?|_]; [lia|].
  destruct (Z.leb_spec 0 i) as [_|?]; [|lia].
  destruct (Z.ltb_spec i (Z.of_nat (length xs))) as [_|?]; [cbn|lia].
  assert (Z.to_nat i < length xs)%nat as Hlt by lia.
  destruct (lookup_lt_is_Some_2 xs _ Hlt) as [x Hx]. rewrite Hx. cbn.
  f_equal. symmetry. by apply nth_lookup_Some.
Qed.

Lemma getitem_out_of_bounds {A : Type} (xs : list A) (i : Z) :
  (Z.of_nat (length xs) <= i)%Z -> getitem xs i = Raise IndexError.
Proof.
  intros Hi. unfold getitem.
  destruct (Z.ltb_spec i 0) as [?|_]; [lia|].
  destruct (Z.ltb_spec i (Z.of_nat (length xs))) as [?|_]; [lia|].
  by rewrite andb_false_r.
Qed.

Lemma mapM_getitem_in_bounds {A : Type} (d : A) (xs : list A) (idx : list Z) :
  Forall (fun i => (0 <= i < Z.of_nat (length xs))%Z) idx ->
  mapM (getitem xs) idx = Ok (map (fun i => nth (Z.to_nat i) xs d) idx).
Proof.
  induction 1 as [|i idx Hi _ IH]; [done|].
  cbn. rewrite (getitem_in_bounds d) by done. cbn. rewrite IH. done.
Qed.

Lemma take_in_bounds {A : Type} (d : A) (xs : list A) (idx : list Z) :
  Forall (fun i => (0 <= i < Z.of_nat (length xs))%Z) idx ->
  take (Vector xs) idx = Ok (Vector (map (fun i => nth (Z.to_nat i) xs d) idx)).
Proof.
  intros H. unfold take. by rewrite (mapM_getitem_in_bounds d).
Qed.

Example getitem_from_the_end :
  getitem [10; 20; 30]%Z (-1) = Ok 30%Z /\
  getitem [10; 20; 30]%Z (-4) = Raise IndexError /\
  getitem [10; 20; 30]%Z 3 = Raise IndexError.
Proof. repeat split; reflexivity. Qed.

Example n_owners_example : n_owners [2; 0; 2; 1; 0]%Z = 3%nat.
Proof. reflexivity. Qed.

(** C8. With [logit_p_owner_scale] and [logit_p_owner_mean] of shape
    [(n_owners,)], [logit_p_shop_raw] of shape [(len(data),)] and every
    value of [owner_idx] inside [[0, n_owners)], every index access of the
    transform is in bounds and the transform returns an array of shape
    [(len(data),)], whose element [k] is
    [raw[k] * scale[owner_idx[k]] + mean[owner_idx[k]]]. *)
Theorem logit_p_shop_total (raw scale mean : list R) (owner_idx : list Z) :
  length scale = n_owners owner_idx ->
  length mean = n_owners owner_idx ->
  length raw = length owner_idx ->
  Forall (fun i => (0 <= i < Z.of_nat (n_owners owner_idx))%Z) owner_idx ->
  Forall (fun i => getitem scale i = Ok (nth (Z.to_nat i) scale 0) /\
                   getitem mean i = Ok (nth (Z.to_nat i) mean 0)) owner_idx /\
  exists out,
    logit_p_shop (Vector raw) (Vector scale) (Vector mean) owner_idx
    = Ok (Vector out) /\
    length out = length owner_idx /\
    forall k, (k < length owner_idx)%nat ->
      nth k out 0
      = nth k raw 0 * nth (Z.to_nat (nth k owner_idx 0%Z)) scale 0
        + nth (Z.to_nat (nth k owner_idx 0%Z)) mean 0.
Proof.
  intros Hscale Hmean Hraw Hidx. split.
  { eapply Forall_impl; [exact Hidx|]. cbn. intros i Hi.
    split; apply getitem_in_bounds; lia. }
  set (scales := map (fun i => nth (Z.to_nat i) scale 0) owner_idx).
  set (means := map (fun i => nth (Z.to_nat i) mean 0) owner_idx).
  assert (length scales = length raw) as Hls
    by (unfold scales; rewrite length_map; lia).
  assert (length means = length raw) as Hlm
    by (unfold means; rewrite length_map; lia).
  exists (zip_with_eq Rplus (zip_with_eq Rmult raw scales) means).
  split; [|split].
  - unfold logit_p_shop.
    rewrite (take_in_bounds 0 scale) by (by rewrite Hscale).
    rewrite (take_in_bounds 0 mean) by (by rewrite Hmean).
    fold scales means. cbn -[Nat.eqb]. rewrite Hls, Nat.eqb_refl.
    cbn -[Nat.eqb].
    rewrite length_zip_with_eq by done. by rewrite Hlm, Nat.eqb_refl.
  - rewrite !length_zip_with_eq; rewrite ?length_zip_with_eq; lia.
  - intros k Hk.
    rewrite (nth_zip_with_eq Rplus 0 0 0)
      by (rewrite ?length_zip_with_eq; lia).
    rewrite (nth_zip_with_eq Rmult 0 0 0) by lia.
    unfold scales, means.
    rewrite (nth_indep (map _ owner_idx) 0
               ((fun i => nth (Z.to_nat i) scale 0) 0%Z))
      by (rewrite length_map; lia).
    rewrite (map_nth (fun i => nth (Z.to_nat i) scale 0)).
    rewrite (nth_indep (map _ owner_idx) 0
               ((fun i => nth (Z.to_nat i) mean 0) 0%Z))
      by (rewrite length_map; lia).
    by rewrite (map_nth (fun i => nth (Z.to_nat i) mean 0)).
Qed.

Lemma logit_p_shop_total_witness :
  Forall (fun i => getitem [2; 3] i = Ok (nth (Z.to_nat i) [2; 3] 0) /\
                   getitem [10; 20] i = Ok (nth (Z.to_nat i) [10; 20] 0))
    [0; 1; 0]%Z /\
  exists out,
    logit_p_shop (Vector [1; 2; 3]) (Vector [2; 3]) (Vector [10; 20])
      [0; 1; 0]%Z = Ok (Vector out) /\
    length out = 3%nat /\
    forall k, (k < 3)%nat ->
      nth k out 0
      = nth k [1; 2; 3] 0 * nth (Z.to_nat (nth k [0; 1; 0]%Z 0%Z)) [2; 3] 0
        + nth (Z.to_nat (nth k [0; 1; 0]%Z 0%Z)) [10; 20] 0.
Proof.
  apply (logit_p_shop_total [1; 2; 3] [2; 3] [10; 20] [0; 1; 0]%Z).
  - reflexivity.
  - reflexivity.
  - reflexivity.
  - repeat constructor; cbn; lia.
Defined.

(** The precondition of C8 is needed: an owner index outside
    [[0, n_owners)] is an [IndexError]. *)
Example logit_p_shop_out_of_bounds :
  logit_p_shop (Vector [1; 1]) (Vector [2]) (Vector [3]) [5; 5]%Z
  = Raise IndexError.
Proof. reflexivity. Qed.

(** ** The probability of the Binomial likelihood *)



(** ** Neal's funnel *)


Lemma norm_pdf_defined (loc scale x : R) :
  0 < scale ->
  norm_pdf loc scale x = Some (norm_pdf_std ((x - loc) / scale) / scale).
Proof. intros Hs. unfold norm_pdf. by destruct (Rlt_dec 0 scale). Qed.


(** ** The transform on the object store *)

Lemma alloc_spec (h : gmap nat object) (o : object) :
  exists l, alloc h o = (l, <[l := o]> h) /\ h !! l = None.
Proof.
  exists (fresh (dom h)). split; [done|].
  apply not_elem_of_dom, is_fresh.
Qed.

Lemma read_real_stored (h : gmap nat object) (l : nat) (t : tensor R) :
  h !! l = Some (RealArray t) -> read_real h l = Ok t.
Proof. intros H. unfold read_real. by rewrite H. Qed.

Lemma read_int_stored (h : gmap nat object) (l : nat) (idx : list Z) :
  h !! l = Some (IntArray idx) -> read_int h l = Ok idx.
Proof. intros H. unfold read_int. by rewrite H. Qed.

(** An operator reads its operands and allocates its result: the objects
    already in the store are left as they were. *)
Lemma eval_binop_spec (f : R -> R -> R) (h : gmap nat object) (la lb : nat)
    (a b : tensor R) :
  h !! la = Some (RealArray a) -> h !! lb = Some (RealArray b) ->
  match broadcast2 f a b with
  | Ok c => exists l, eval_binop f h la lb = Ok (l, <[l := RealArray c]> h) /\
                      h !! l = None
  | Raise e => eval_binop f h la lb = Raise e
  end.
Proof.
  intros Ha Hb. unfold eval_binop.
  rewrite (read_real_stored _ _ _ Ha), (read_real_stored _ _ _ Hb). cbn.
  destruct (broadcast2 f a b) as [c|e]; [cbn|done].
  destruct (alloc_spec h (RealArray c)) as (l & Hl & Hfresh).
  exists l. by rewrite Hl.
Qed.

Lemma eval_take_spec (h : gmap nat object) (la li : nat)
    (a : tensor R) (idx : list Z) :
  h !! la = Some (RealArray a) -> h !! li = Some (IntArray idx) ->
  match take a idx with
  | Ok c => exists l, eval_take h la li = Ok (l, <[l := RealArray c]> h) /\
                      h !! l = None
  | Raise e => eval_take h la li = Raise e
  end.
Proof.
  intros Ha Hi. unfold eval_take.
  rewrite (read_real_stored _ _ _ Ha), (read_int_stored _ _ _ Hi). cbn.
  destruct (take a idx) as [c|e]; [cbn|done].
  destruct (alloc_spec h (RealArray c)) as (l & Hl & Hfresh).
  exists l. by rewrite Hl.
Qed.

Lemma lookup_insert_fresh (h : gmap nat object) (l k : nat) (o o' : object) :
  h !! l = None -> h !! k = Some o -> <[l := o']> h !! k = Some o.
Proof.
  intros Hl Hk. rewrite lookup_insert_ne; [done|]. congruence.
Qed.

(** The store-level evaluation computes the function [transform] of the
    three arrays it reads, and only adds objects to the store. *)
Lemma eval_transform_spec (h : gmap nat object) (r l s : nat)
    (raw loc scale : tensor R) :
  h !! r = Some (RealArray raw) ->
  h !! l = Some (RealArray loc) ->
  h !! s = Some (RealArray scale) ->
  match transform raw loc scale with
  | Ok eff => exists out h',
      eval_transform h r l s = Ok (out, h') /\
      h' !! out = Some (RealArray eff) /\ h !! out = None /\ h ⊆ h'
  | Raise e => eval_transform h r l s = Raise e
  end.
Proof.
  intros Hr Hl Hs. unfold transform, eval_transform, tmul, tadd.
  pose proof (eval_binop_spec Rmult h r s raw scale Hr Hs) as Hmul.
  destruct (broadcast2 Rmult raw scale) as [p|e]; cbn;
    [|by rewrite Hmul].
  destruct Hmul as (lp & -> & Hlp). cbn.
  pose proof (eval_binop_spec Rplus (<[lp := RealArray p]> h) lp l p loc
                (lookup_insert_eq _ _ _)
                (lookup_insert_fresh _ _ _ _ _ Hlp Hl)) as Hadd.
  destruct (broadcast2 Rplus p loc) as [eff|e]; [|done].
  destruct Hadd as (out & -> & Hout).
  exists out, (<[out := RealArray eff]> (<[lp := RealArray p]> h)).
  split; [done|]. split; [by rewrite lookup_insert_eq|].
  assert (h ⊆ <[lp := RealArray p]> h) as Hsub by (by apply insert_subseteq).
  split.
  - eapply lookup_weaken_None; [exact Hout|done].
  - etrans; [exact Hsub|]. by apply insert_subseteq.
Qed.

Lemma returned_eval_transform (h : gmap nat object) (r l s : nat)
    (raw loc scale : tensor R) :
  h !! r = Some (RealArray raw) ->
  h !! l = Some (RealArray loc) ->
  h !! s = Some (RealArray scale) ->
  returned (eval_transform h r l s) = transform raw loc scale.
Proof.
  intros Hr Hl Hs.
  pose proof (eval_transform_spec h r l s raw loc scale Hr Hl Hs) as H.
  destruct (transform raw loc scale) as [eff|e]; [|by rewrite H].
  destruct H as (out & h' & -> & Hout & _). cbn.
  by apply read_real_stored.
Qed.

(** C7. The transform has no state of its own and no side effect: run on
    any two stores that hold equal [raw], [loc] and [scale] arrays (at
    whatever addresses, next to whatever other objects), it returns equal
    results, namely the function [transform] of the three arrays; and a
    run leaves every object of the store as it was, the returned array
    being newly allocated. *)
Theorem eval_transform_pure (h1 h2 : gmap nat object)
    (r1 l1 s1 r2 l2 s2 : nat) (raw loc scale : tensor R) :
  h1 !! r1 = Some (RealArray raw) ->
  h1 !! l1 = Some (RealArray loc) ->
  h1 !! s1 = Some (RealArray scale) ->
  h2 !! r2 = Some (RealArray raw) ->
  h2 !! l2 = Some (RealArray loc) ->
  h2 !! s2 = Some (RealArray scale) ->
  returned (eval_transform h1 r1 l1 s1) = returned (eval_transform h2 r2 l2 s2)
  /\ returned (eval_transform h1 r1 l1 s1) = transform raw loc scale
  /\ forall out h1', eval_transform h1 r1 l1 s1 = Ok (out, h1') ->
       h1 !! out = None /\
       forall k o, h1 !! k = Some o -> h1' !! k = Some o.
Proof.
  intros Hr1 Hl1 Hs1 Hr2 Hl2 Hs2.
  rewrite (returned_eval_transform h1 r1 l1 s1 raw loc scale) by done.
  rewrite (returned_eval_transform h2 r2 l2 s2 raw loc scale) by done.
  split; [done|]. split; [done|].
  intros out h1' Heval.
  pose proof (eval_transform_spec h1 r1 l1 s1 raw loc scale Hr1 Hl1 Hs1) as H.
  destruct (transform raw loc scale) as [eff|e]; [|congruence].
  destruct H as (out' & h' & Heval' & _ & Hfresh & Hsub).
  rewrite Heval in Heval'. injection Heval' as -> ->.
  split; [done|]. intros k o Hk. by eapply lookup_weaken.
Qed.

Lemma eval_transform_pure_witness :
  let h1 : gmap nat object :=
    {[ 0%nat := RealArray (Vector [1; 1; 1]);
       1%nat := RealArray (Vector [0; 1; 2]);
       2%nat := RealArray (Scalar 1) ]} in
  let h2 : gmap nat object :=
    {[ 5%nat := RealArray (Scalar 1);
       3%nat := IntArray [0%Z];
       7%nat := RealArray (Vector [1; 1; 1]);
       4%nat := RealArray (Vector [0; 1; 2]) ]} in
  returned (eval_transform h1 0 1 2) = returned (eval_transform h2 7 4 5).
Proof.
  intros h1 h2.
  apply (eval_transform_pure h1 h2 0 1 2 7 4 5
           (Vector [1; 1; 1]) (Vector [0; 1; 2]) (Scalar 1));
    reflexivity.
Defined.

(** The same holds of the whole expression of cell 27, indexing
    included. *)
Lemma eval_logit_p_shop_spec (h : gmap nat object) (r s m i : nat)
    (raw scale mean : tensor R) (owner_idx : list Z) :
  h !! r = Some (RealArray raw) ->
  h !! s = Some (RealArray scale) ->
  h !! m = Some (RealArray mean) ->
  h !! i = Some (IntArray owner_idx) ->
  match logit_p_shop raw scale mean owner_idx with
  | Ok v => exists out h',
      eval_logit_p_shop h r s m i = Ok (out, h') /\
      h' !! out = Some (RealArray v) /\ h !! out = None /\ h ⊆ h'
  | Raise e => eval_logit_p_shop h r s m i = Raise e
  end.
Proof.
  intros Hr Hs Hm Hi. unfold logit_p_shop, eval_logit_p_shop, tmul, tadd.
  pose proof (eval_take_spec h s i scale owner_idx Hs Hi) as H1.
  destruct (take scale owner_idx) as [sc|e]; cbn; [|by rewrite H1].
  destruct H1 as (l1 & -> & Hl1). cbn.
  set (h1 := <[l1 := RealArray sc]> h).
  assert (h ⊆ h1) as Hsub1 by (by apply insert_subseteq).
  pose proof (eval_binop_spec Rmult h1 r l1 raw sc
                (lookup_weaken _ _ _ _ Hr Hsub1) (lookup_insert_eq _ _ _))
    as H2.
  destruct (broadcast2 Rmult raw sc) as [p|e]; cbn; [|by rewrite H2].
  destruct H2 as (l2 & -> & Hl2). cbn.
  set (h2 := <[l2 := RealArray p]> h1).
  assert (h1 ⊆ h2) as Hsub2 by (by apply insert_subseteq).
  assert (h ⊆ h2) as Hsub12 by (by etrans).
  pose proof (eval_take_spec h2 m i mean owner_idx
                (lookup_weaken _ _ _ _ Hm Hsub12)
                (lookup_weaken _ _ _ _ Hi Hsub12)) as H3.
  destruct (take mean owner_idx) as [mn|e]; cbn; [|by rewrite H3].
  destruct H3 as (l3 & -> & Hl3). cbn.
  set (h3 := <[l3 := RealArray mn]> h2).
  assert (h2 ⊆ h3) as Hsub3 by (by apply insert_subseteq).
  pose proof (eval_binop_spec Rplus h3 l2 l3 p mn
                (lookup_weaken _ _ _ _ (lookup_insert_eq _ _ _) Hsub3)
                (lookup_insert_eq _ _ _)) as H4.
  destruct (broadcast2 Rplus p mn) as [v|e]; [|done].
  destruct H4 as (out & -> & Hout).
  exists out, (<[out := RealArray v]> h3).
  split; [done|]. split; [by rewrite lookup_insert_eq|].
  assert (h ⊆ h3) as Hsub by (by etrans).
  split.
  - eapply lookup_weaken_None; [exact Hout|done].
  - etrans; [exact Hsub|]. by apply insert_subseteq.
Qed.

(** ** The transform of a standard normal draw *)

Lemma transform_scalar_eq (raw loc scale : R) :
  transform_scalar raw loc scale = raw * scale + loc.
Proof. reflexivity. Qed.

(** The event [a <= transform raw <= b] is an interval of [raw]. *)
Lemma transform_scalar_preimage (loc scale a b x : R) :
  0 < scale ->
  a <= transform_scalar x loc scale <= b <->
  (a - loc) / scale <= x <= (b - loc) / scale.
Proof.
  intros Hs. rewrite transform_scalar_eq.
  assert ((a - loc) / scale * scale = a - loc) as Ha by (field; lra).
  assert ((b - loc) / scale * scale = b - loc) as Hb by (field; lra).
  set (a' := (a - loc) / scale) in *. set (b' := (b - loc) / scale) in *.
  split; intros [H1 H2]; split; nra.
Qed.

Lemma derivable_pt_lim_standardize (mu sigma y : R) :
  sigma <> 0 ->
  derivable_pt_lim (fun y => (y - mu) / sigma) y (/ sigma).
Proof.
  intros Hs eps Heps. exists (mkposreal 1 Rlt_0_1). intros h Hh _.
  replace (((y + h - mu) / sigma - (y - mu) / sigma) / h - / sigma) with 0
    by (by field).
  by rewrite Rabs_R0.
Qed.

(** Change of variable in the density. *)
Lemma normal_density_standardize (mu sigma y : R) :
  0 < sigma ->
  normal_density 0 1 ((y - mu) / sigma) * / sigma = normal_density mu sigma y.
Proof.
  intros Hs. unfold normal_density.
  assert (0 < sqrt (2 * PI)) as Hpi.
  { apply sqrt_lt_R0. pose proof PI_RGT_0. lra. }
  replace (- ((y - mu) / sigma - 0) ^ 2 / (2 * 1 ^ 2))
    with (- (y - mu) ^ 2 / (2 * sigma ^ 2)) by (field; lra).
  field. lra.
Qed.

(** The density of [scipy.stats.norm] is the normal density. *)
Lemma norm_pdf_normal_density (loc scale x : R) :
  0 < scale -> norm_pdf loc scale x = Some (normal_density loc scale x).
Proof.
  intros Hs. rewrite norm_pdf_defined by done. f_equal.
  unfold norm_pdf_std, normal_density.
  assert (0 < sqrt (2 * PI)) as Hpi.
  { apply sqrt_lt_R0. pose proof PI_RGT_0. lra. }
  replace (- ((x - loc) / scale) ^ 2 / 2)
    with (- (x - loc) ^ 2 / (2 * scale ^ 2)) by (field; lra).
  field. lra.
Qed.

Lemma transform_law_normal (loc scale : R) (P : (R -> Prop) -> R) :
  0 < scale -> is_normal 0 1 P ->
  is_normal loc scale (law_of_image (fun raw => transform_scalar raw loc scale) P).
Proof.
  intros Hs HP A a b Hab HA. unfold law_of_image.
  assert ((a - loc) / scale <= (b - loc) / scale) as Hab'.
  { apply Rmult_le_compat_r; [|lra]. left. by apply Rinv_0_lt_compat. }
  destruct (HP (fun x => A (transform_scalar x loc scale)) _ _ Hab')
    as (F & HF & HPA).
  { intros x. rewrite HA. by apply transform_scalar_preimage. }
  exists (fun y => F ((y - loc) / scale)). split; [|done].
  intros y Hy.
  rewrite <- normal_density_standardize by done.
  apply (derivable_pt_lim_comp (fun y => (y - loc) / scale) F).
  - apply derivable_pt_lim_standardize. lra.
  - apply HF. split; (apply Rmult_le_compat_r;
      [left; by apply Rinv_0_lt_compat|lra]).
Qed.

(** A normal law is determined on the intervals. *)
Lemma is_normal_unique (mu sigma : R) (P Q : (R -> Prop) -> R) :
  is_normal mu sigma P -> is_normal mu sigma Q -> same_on_intervals P Q.
Proof.
  intros HP HQ A a b Hab HA.
  destruct (HP A a b Hab HA) as (F & HF & ->).
  destruct (HQ A a b Hab HA) as (G & HG & ->).
  assert (forall H : R -> R,
            (forall x, a <= x <= b ->
               derivable_pt_lim H x (normal_density mu sigma x)) ->
            antiderivative (normal_density mu sigma) H a b) as Hanti.
  { intros H HH. split; [|done]. intros x Hx.
    exists (exist _ _ (HH x Hx)). symmetry. apply derive_pt_eq_0, HH, Hx. }
  destruct (antiderivative_Ucte _ _ _ _ _ (Hanti F HF) (Hanti G HG)) as [c Hc].
  rewrite (Hc a), (Hc b) by lra. lra.
Qed.

(** C2. For every [loc] and every [scale > 0]: if [raw] is standard
    normal, the law of [transform raw loc scale] is the normal law
    N(loc, scale) itself, and it gives every interval exactly the
    probability that the law of a direct draw from N(loc, scale) gives
    it. *)
Theorem transform_standard_normal (loc scale : R) (P Q : (R -> Prop) -> R) :
  0 < scale ->
  is_normal 0 1 P ->
  is_normal loc scale Q ->
  is_normal loc scale
    (law_of_image (fun raw => transform_scalar raw loc scale) P) /\
  same_on_intervals
    (law_of_image (fun raw => transform_scalar raw loc scale) P) Q.
Proof.
  intros Hs HP HQ.
  pose proof (transform_law_normal loc scale P Hs HP) as HT.
  split; [done|]. by apply (is_normal_unique loc scale).
Qed.

(** The laws to draw from directly are normal. *)
Lemma interval_of_interval (A : R -> Prop) (a b : R) :
  a <= b -> (forall x, A x <-> a <= x <= b) -> interval_of A = (a, b).
Proof.
  intros Hab HA. unfold interval_of.
  match goal with |- epsilon ?i ?Q = _ =>
    pose proof (epsilon_spec i Q) as Hspec; destruct (epsilon i Q) as [a0 b0]
  end.
  destruct Hspec as [H0 HA0]; [by exists (a, b)|]. cbn in *.
  assert (a0 <= a <= b0) as Ha by (apply HA0, HA; lra).
  assert (a0 <= b <= b0) as Hb by (apply HA0, HA; lra).
  assert (a <= a0 <= b) as Ha0 by (apply HA, HA0; lra).
  assert (a <= b0 <= b) as Hb0 by (apply HA, HA0; lra).
  f_equal; lra.
Qed.

Lemma integral_of_antiderivative (f : R -> R) (cont : continuity f) (a b : R) :
  a <= b ->
  exists F : R -> R,
    (forall x, a <= x <= b -> derivable_pt_lim F x (f x)) /\
    integral_of f cont a b = F b - F a.
Proof.
  intros Hab.
  set (C0 := fun (x : R) (_ : a <= x <= b) => cont x).
  exists (primitive Hab (FTC_P1 Hab C0)). split.
  - intros x Hx. by apply RiemannInt_P28.
  - unfold integral_of. destruct (Rle_dec a b) as [h|]; [|done].
    apply RiemannInt_P20.
Qed.

Lemma normal_law_is_normal (mu sigma : R) : is_normal mu sigma (normal_law mu sigma).
Proof.
  intros A a b Hab HA. unfold normal_law.
  rewrite (interval_of_interval A a b Hab HA). cbn [fst snd].
  by apply integral_of_antiderivative.
Qed.

Lemma transform_standard_normal_witness :
  is_normal 5 2
    (law_of_image (fun raw => transform_scalar raw 5 2) (normal_law 0 1)) /\
  same_on_intervals
    (law_of_image (fun raw => transform_scalar raw 5 2) (normal_law 0 1))
    (normal_law 5 2).
Proof.
  apply (transform_standard_normal 5 2 (normal_law 0 1) (normal_law 5 2)).
  - lra.
  - apply normal_law_is_normal.
  - apply normal_law_is_normal.
Defined.

(** * Further properties of the notebook's code *)

(** ** Indexing by owner: errors and negative indices *)

Lemma getitem_normalize {A : Type} (d : A) (xs : list A) (i : Z) :
  (- Z.of_nat (length xs) <= i < Z.of_nat (length xs))%Z ->
  getitem xs i = Ok (nth (Z.to_nat (normalize_index (length xs) i)) xs d).
Proof.
  intros Hi. unfold getitem, normalize_index.
  set (j := if (i <? 0)%Z then (i + Z.of_nat (length xs))%Z else i).
  assert (0 <= j < Z.of_nat (length xs))%Z as Hj.
  { unfold j. destruct (Z.ltb_spec i 0); lia. }
  destruct (Z.leb_spec 0 j) as [_|?]; [|lia].
  destruct (Z.ltb_spec j (Z.of_nat (length xs))) as [_|?]; [cbn|lia].
  assert (Z.to_nat j < length xs)%nat as Hlt by lia.
  destruct (lookup_lt_is_Some_2 xs _ Hlt) as [x Hx]. rewrite Hx. cbn.
  f_equal. symmetry. by apply nth_lookup_Some.
Qed.

Lemma getitem_outside {A : Type} (xs : list A) (i : Z) :
  ~ (- Z.of_nat (length xs) <= i < Z.of_nat (length xs))%Z ->
  getitem xs i = Raise IndexError.
Proof.
  intros Hi. unfold getitem.
  set (j := if (i <? 0)%Z then (i + Z.of_nat (length xs))%Z else i).
  assert (~ (0 <= j < Z.of_nat (length xs))%Z) as Hj.
  { unfold j. destruct (Z.ltb_spec i 0); lia. }
  destruct (Z.leb_spec 0 j) as [?|?]; [|done].
  destruct (Z.ltb_spec j (Z.of_nat (length xs))) as [?|?]; [lia|done].
Qed.

Lemma take_in_range {A : Type} (d : A) (xs : list A) (idx : list Z) :
  Forall (fun i => (- Z.of_nat (length xs) <= i < Z.of_nat (length xs))%Z) idx ->
  take (Vector xs) idx
  = Ok (Vector (map (fun i => nth (Z.to_nat (normalize_index (length xs) i)) xs d)
                  idx)).
Proof.
  intros H. unfold take.
  assert (mapM (getitem xs) idx
          = Ok (map (fun i => nth (Z.to_nat (normalize_index (length xs) i)) xs d)
                  idx)) as ->; [|done].
  induction H as [|i idx Hi _ IH]; [done|].
  cbn. rewrite (getitem_normalize d) by done. cbn. by rewrite IH.
Qed.

Lemma take_outside {A : Type} (xs : list A) (idx : list Z) :
  Exists (fun i => ~ (- Z.of_nat (length xs) <= i < Z.of_nat (length xs))%Z) idx ->
  take (Vector xs) idx = Raise IndexError.
Proof.
  intros H. unfold take.
  assert (mapM (getitem xs) idx = Raise IndexError) as ->; [|done].
  induction idx as [|i idx IH]; [by apply Exists_nil in H|].
  cbn.
  destruct (decide (- Z.of_nat (length xs) <= i < Z.of_nat (length xs))%Z)
    as [Hi|Hi].
  - destruct xs as [|x xs]; [cbn in Hi; lia|].
    rewrite (getitem_normalize x) by done. cbn.
    rewrite IH; [done|]. apply Exists_cons in H as [H|H]; done.
  - by rewrite getitem_outside.
Qed.

Lemma broadcast2_raises {A B C : Type} (f : A -> B -> C)
    (a : tensor A) (b : tensor B) (e : error) :
  broadcast2 f a b = Raise e -> e = ShapeError.
Proof.
  destruct a as [x|xs], b as [y|ys]; cbn; try done.
  repeat case_match; try done; by intros [= <-].
Qed.

Lemma transform_shape_of (raw loc scale eff : tensor R) :
  transform raw loc scale = Ok eff ->
  transform_shape raw loc scale = Ok (shape eff).
Proof.
  unfold transform, transform_shape, tmul, tadd.
  rewrite <- (broadcast2_shape Rmult).
  destruct (broadcast2 Rmult raw scale) as [p|e]; [cbn|done].
  intros Heff. by rewrite <- (broadcast2_shape Rplus), Heff.
Qed.

(** With owner-level arrays of one length [n], the node [logit_p_shop]
    raises [IndexError] exactly when some owner index lies outside
    [[-n, n)]. *)
Theorem logit_p_shop_index_error (raw : tensor R) (scale mean : list R)
    (owner_idx : list Z) :
  length scale = length mean ->
  logit_p_shop raw (Vector scale) (Vector mean) owner_idx = Raise IndexError
  <-> Exists (fun i => ~ (- Z.of_nat (length scale) <= i
                           < Z.of_nat (length scale))%Z) owner_idx.
Proof.
  intros Hlen. split.
  - intros Hraise.
    destruct (decide (Exists (fun i => ~ (- Z.of_nat (length scale) <= i
                                < Z.of_nat (length scale))%Z) owner_idx))
      as [|Hall]; [done|exfalso].
    apply Forall_Exists_neg in Hall.
    assert (Forall (fun i => (- Z.of_nat (length scale) <= i
                              < Z.of_nat (length scale))%Z) owner_idx) as Hin.
    { eapply Forall_impl; [exact Hall|]. cbn. intros i Hi.
      destruct (decide (- Z.of_nat (length scale) <= i
                        < Z.of_nat (length scale))%Z); [done|]. by destruct Hi. }
    revert Hraise. unfold logit_p_shop.
    rewrite (take_in_range 0 scale) by done.
    rewrite (take_in_range 0 mean) by (by rewrite <- Hlen).
    cbn [mbind result_bind]. unfold tmul, tadd.
    destruct (broadcast2 Rmult raw _) as [p|e] eqn:Hp.
    + intros H. by apply broadcast2_raises in H.
    + apply broadcast2_raises in Hp as ->. done.
  - intros Hex. unfold logit_p_shop.
    rewrite (take_outside scale) by done. reflexivity.
Qed.

Lemma logit_p_shop_index_error_witness :
  logit_p_shop (Vector [1; 1]) (Vector [2; 3]) (Vector [10; 20]) [1; 2]%Z
  = Raise IndexError.
Proof.
  apply (logit_p_shop_index_error (Vector [1; 1]) [2; 3] [10; 20] [1; 2]%Z).
  - reflexivity.
  - apply Exists_cons_tl, Exists_cons_hd. cbn. lia.
Defined.

Lemma normalize_index_range (n : nat) (i : Z) :
  (- Z.of_nat n <= i < Z.of_nat n)%Z ->
  (0 <= normalize_index n i < Z.of_nat n)%Z.
Proof. unfold normalize_index. destruct (Z.ltb_spec i 0); lia. Qed.

Lemma normalize_index_nonneg (n : nat) (i : Z) :
  (0 <= i)%Z -> normalize_index n i = i.
Proof. unfold normalize_index. destruct (Z.ltb_spec i 0); lia. Qed.

(** A negative owner index is not rejected: [-k] reads the owner
    [n - k].  Indexing with indices in [[-n, n)] gives what indexing with
    their non-negative counterparts gives. *)
Theorem logit_p_shop_negative_index (raw : tensor R) (scale mean : list R)
    (owner_idx : list Z) :
  length scale = length mean ->
  Forall (fun i => (- Z.of_nat (length scale) <= i
                    < Z.of_nat (length scale))%Z) owner_idx ->
  Forall (fun j => (0 <= j < Z.of_nat (length scale))%Z)
    (map (normalize_index (length scale)) owner_idx) /\
  logit_p_shop raw (Vector scale) (Vector mean) owner_idx
  = logit_p_shop raw (Vector scale) (Vector mean)
      (map (normalize_index (length scale)) owner_idx).
Proof.
  intros Hlen Hin.
  assert (Forall (fun j => (0 <= j < Z.of_nat (length scale))%Z)
            (map (normalize_index (length scale)) owner_idx)) as Hnorm.
  { apply List.Forall_map. eapply Forall_impl; [exact Hin|].
    intros i Hi. by apply normalize_index_range. }
  split; [done|].
  assert (forall xs : list R, length xs = length scale ->
            take (Vector xs) owner_idx
            = take (Vector xs) (map (normalize_index (length scale)) owner_idx))
    as Htake.
  { intros xs Hxs.
    rewrite (take_in_range 0 xs owner_idx) by (by rewrite Hxs).
    rewrite (take_in_range 0 xs (map _ owner_idx)).
    - rewrite map_map. do 2 f_equal. apply map_ext_in. intros i Hi.
      rewrite Hxs.
      pose proof (proj1 (List.Forall_forall _ _) Hin i Hi) as Hr.
      apply normalize_index_range in Hr.
      rewrite (normalize_index_nonneg _ (normalize_index _ i)); [done|lia].
    - rewrite Hxs. eapply Forall_impl; [exact Hnorm|]. cbn. lia. }
  unfold logit_p_shop.
  by rewrite <- (Htake scale), <- (Htake mean).
Qed.

Lemma logit_p_shop_negative_index_witness :
  logit_p_shop (Vector [1; 1]) (Vector [2; 3]) (Vector [10; 20]) [-1; 0]%Z
  = logit_p_shop (Vector [1; 1]) (Vector [2; 3]) (Vector [10; 20])
      (map (normalize_index 2) [-1; 0]%Z).
Proof.
  apply (logit_p_shop_negative_index (Vector [1; 1]) [2; 3] [10; 20] [-1; 0]%Z).
  - reflexivity.
  - repeat constructor; cbn; lia.
Defined.

(** With every owner index inside [[-n, n)], the only remaining error is
    the array layer's: [logit_p_shop] returns an array of the shape that
    [raw] and [owner_idx] broadcast to, and raises the shape error when
    they do not broadcast. *)
Theorem logit_p_shop_shape (raw : tensor R) (scale mean : list R)
    (owner_idx : list Z) :
  length scale = length mean ->
  Forall (fun i => (- Z.of_nat (length scale) <= i
                    < Z.of_nat (length scale))%Z) owner_idx ->
  match broadcast_shape (shape raw) (Some (length owner_idx)) with
  | Ok s => exists out,
      logit_p_shop raw (Vector scale) (Vector mean) owner_idx = Ok out /\
      shape out = s
  | Raise _ =>
      logit_p_shop raw (Vector scale) (Vector mean) owner_idx = Raise ShapeError
  end.
Proof.
  intros Hlen Hin.
  set (sc := map (fun i => nth (Z.to_nat (normalize_index (length scale) i))
                             scale 0) owner_idx).
  set (mn := map (fun i => nth (Z.to_nat (normalize_index (length mean) i))
                             mean 0) owner_idx).
  rewrite (logit_p_shop_transform raw (Vector scale) (Vector mean)
             (Vector sc) (Vector mn))
    by (apply take_in_range; by rewrite <- ?Hlen).
  assert (transform_shape raw (Vector mn) (Vector sc)
          = (s ← broadcast_shape (shape raw) (Some (length owner_idx));
             broadcast_shape s (Some (length owner_idx)))) as Hshape.
  { unfold transform_shape, sc, mn. cbn [shape]. by rewrite !length_map. }
  destruct (broadcast_shape (shape raw) (Some (length owner_idx)))
    as [s|e] eqn:Hs.
  - cbn in Hshape. rewrite (broadcast_shape_absorb_r _ _ _ Hs) in Hshape.
    destruct (transform_defined _ _ _ _ Hshape) as (out & Hout & Hso & _).
    by exists out.
  - cbn in Hshape.
    destruct (transform raw (Vector mn) (Vector sc)) as [eff|e'] eqn:Ht.
    + apply transform_shape_of in Ht. congruence.
    + by apply transform_raises in Ht as [-> _].
Qed.

Lemma logit_p_shop_shape_witness :
  logit_p_shop (Vector [1; 1; 1]) (Vector [2; 3]) (Vector [10; 20]) [1; 0]%Z
  = Raise ShapeError.
Proof.
  apply (logit_p_shop_shape (Vector [1; 1; 1]) [2; 3] [10; 20] [1; 0]%Z).
  - reflexivity.
  - repeat constructor; cbn; lia.
Defined.

(** ** Distinct owners and the owner coordinates of cell 28 *)

Lemma existsb_eqb_elem_of (x : Z) (seen : list Z) :
  existsb (Z.eqb x) seen = true <-> x ∈ seen.
Proof.
  rewrite existsb_exists, list_elem_of_In. split.
  - intros (y & Hy & Heq). apply Z.eqb_eq in Heq. by subst.
  - intros Hx. exists x. split; [done|apply Z.eqb_refl].
Qed.

Lemma elem_of_unique_from (seen l : list Z) (x : Z) :
  x ∈ unique_from seen l <-> x ∈ l /\ x ∉ seen.
Proof.
  revert seen. induction l as [|y l IH]; intros seen; cbn.
  - rewrite elem_of_nil. tauto.
  - destruct (existsb (Z.eqb y) seen) eqn:Hy.
    + apply existsb_eqb_elem_of in Hy. rewrite IH, elem_of_cons.
      split; [tauto|]. intros [[->|Hx] Hseen]; tauto.
    + assert (y ∉ seen) as Hy'.
      { intros H. apply existsb_eqb_elem_of in H. congruence. }
      rewrite !elem_of_cons, IH, elem_of_cons.
      destruct (decide (x = y)) as [->|Hxy]; tauto.
Qed.

Lemma NoDup_unique_from (seen l : list Z) : NoDup (unique_from seen l).
Proof.
  revert seen. induction l as [|y l IH]; intros seen; cbn.
  - constructor.
  - destruct (existsb (Z.eqb y) seen); [apply IH|].
    apply NoDup_cons. split; [|apply IH].
    rewrite elem_of_unique_from, elem_of_cons. tauto.
Qed.

Lemma length_unique_from (seen l : list Z) :
  (length (unique_from seen l) <= length l)%nat.
Proof.
  revert seen. induction l as [|y l IH]; intros seen; cbn; [lia|].
  destruct (existsb (Z.eqb y) seen); cbn.
  - specialize (IH seen). lia.
  - specialize (IH (y :: seen)). lia.
Qed.

Lemma elem_of_unique (l : list Z) (x : Z) : x ∈ unique l <-> x ∈ l.
Proof.
  unfold unique. rewrite elem_of_unique_from, elem_of_nil. tauto.
Qed.

(** [n_owners] counts the distinct owners: [unique] keeps every value of
    [owner_idx] exactly once, so there are at most [len(data)] owners, and
    none only when the data has no rows. *)
Theorem n_owners_counts_distinct (owner_idx : list Z) :
  NoDup (unique owner_idx) /\
  (forall x, x ∈ unique owner_idx <-> x ∈ owner_idx) /\
  (n_owners owner_idx <= length owner_idx)%nat /\
  (n_owners owner_idx = 0%nat <-> owner_idx = []).
Proof.
  split; [apply NoDup_unique_from|]. split; [apply elem_of_unique|].
  split; [apply length_unique_from|].
  unfold n_owners. split.
  - intros Hn. destruct owner_idx as [|x l]; [done|].
    apply length_zero_iff_nil in Hn.
    assert (x ∈ unique (x :: l)) as Hx by (apply elem_of_unique; left).
    rewrite Hn in Hx. by apply elem_of_nil in Hx.
  - by intros ->.
Qed.

Lemma unique_from_sorted (seen l : list Z) :
  StronglySorted Z.le l -> StronglySorted Z.lt (unique_from seen l).
Proof.
  revert seen. induction l as [|y l IH]; intros seen Hs; cbn.
  - constructor.
  - apply StronglySorted_inv in Hs as [Hs Hy].
    destruct (existsb (Z.eqb y) seen); [by apply IH|].
    constructor; [by apply IH|].
    apply List.Forall_forall. intros x Hx.
    apply list_elem_of_In, elem_of_unique_from in Hx as [Hx Hseen].
    rewrite elem_of_cons in Hseen.
    pose proof (proj1 (List.Forall_forall _ _) Hy x
                  (proj1 (list_elem_of_In _ _) Hx)) as Hle.
    assert (x <> y) by tauto. lia.
Qed.

Lemma StronglySorted_sort_values (l : list Z) :
  StronglySorted Z.le (sort_values l).
Proof. apply (StronglySorted_merge_sort Z.le). Qed.

Lemma elem_of_sort_values (l : list Z) (x : Z) : x ∈ sort_values l <-> x ∈ l.
Proof. unfold sort_values. by rewrite merge_sort_Permutation. Qed.

Lemma elem_of_owner_coords (owner_idx : list Z) (x : Z) :
  x ∈ owner_coords owner_idx <-> x ∈ owner_idx.
Proof.
  unfold owner_coords. by rewrite elem_of_unique, elem_of_sort_values.
Qed.

Lemma length_owner_coords (owner_idx : list Z) :
  length (owner_coords owner_idx) = n_owners owner_idx.
Proof.
  unfold n_owners. apply Permutation_length, NoDup_Permutation.
  - apply NoDup_unique_from.
  - apply NoDup_unique_from.
  - intros x. by rewrite elem_of_owner_coords, elem_of_unique.
Qed.

Lemma owner_coords_increasing (owner_idx : list Z) :
  StronglySorted Z.lt (owner_coords owner_idx).
Proof. apply unique_from_sorted, StronglySorted_sort_values. Qed.

(** The owner coordinates have one label per owner-level parameter, in
    strictly increasing order, and label exactly the owners that occur in
    the data. *)
Theorem owner_coords_spec (owner_idx : list Z) :
  length (owner_coords owner_idx) = n_owners owner_idx /\
  StronglySorted Z.lt (owner_coords owner_idx) /\
  (forall x, x ∈ owner_coords owner_idx <-> x ∈ owner_idx).
Proof.
  split; [apply length_owner_coords|].
  split; [apply owner_coords_increasing|].
  intros x. apply elem_of_owner_coords.
Qed.

(** Strictly increasing integers inside [[lo, hi)] are at most [hi - lo]
    many, and exactly that many only if they are all of them. *)
Lemma strictly_sorted_bounded (c : list Z) (lo hi : Z) :
  StronglySorted Z.lt c ->
  Forall (fun x => (lo <= x < hi)%Z) c ->
  (Z.of_nat (length c) <= Z.max 0 (hi - lo))%Z.
Proof.
  revert lo. induction c as [|x c IH]; intros lo Hs Hb; cbn [length]; [lia|].
  apply StronglySorted_inv in Hs as [Hs Hx].
  apply List.Forall_cons_iff in Hb as [Hxb Hb].
  assert (Forall (fun y => (x + 1 <= y < hi)%Z) c) as Hb'.
  { apply List.Forall_forall. intros y Hy.
    pose proof (proj1 (List.Forall_forall _ _) Hx y Hy).
    pose proof (proj1 (List.Forall_forall _ _) Hb y Hy). cbn in *. lia. }
  specialize (IH (x + 1)%Z Hs Hb'). lia.
Qed.

Lemma strictly_sorted_full (c : list Z) (lo : Z) :
  StronglySorted Z.lt c ->
  Forall (fun x => (lo <= x < lo + Z.of_nat (length c))%Z) c ->
  c = seqZ lo (Z.of_nat (length c)).
Proof.
  revert lo. induction c as [|x c IH]; intros lo Hs Hb; [done|].
  cbn [length] in *.
  apply StronglySorted_inv in Hs as [Hs Hx].
  apply List.Forall_cons_iff in Hb as [Hxb Hb].
  assert (Forall (fun y => (x + 1 <= y < lo + 1 + Z.of_nat (length c))%Z) c)
    as Hb'.
  { apply List.Forall_forall. intros y Hy.
    pose proof (proj1 (List.Forall_forall _ _) Hx y Hy).
    pose proof (proj1 (List.Forall_forall _ _) Hb y Hy). cbn in *. lia. }
  pose proof (strictly_sorted_bounded c _ _ Hs Hb') as Hlen.
  assert (x = lo) as -> by lia.
  rewrite seqZ_cons by lia. f_equal.
  replace (Z.pred (Z.of_nat (S (length c)))) with (Z.of_nat (length c)) by lia.
  apply IH; [done|].
  eapply Forall_impl; [exact Hb'|]. cbn. intros y Hy. lia.
Qed.

(** Under the precondition of the transform's indexing, every owner index
    inside [[0, n_owners)], the owners are exactly [0, ..., n_owners - 1]:
    the coordinate label at position [k] is [k], and every owner-level
    parameter is read by at least one shop. *)
Theorem owner_coords_contiguous (owner_idx : list Z) :
  Forall (fun i => (0 <= i < Z.of_nat (n_owners owner_idx))%Z) owner_idx ->
  owner_coords owner_idx = seqZ 0 (Z.of_nat (n_owners owner_idx)) /\
  forall j, (0 <= j < Z.of_nat (n_owners owner_idx))%Z -> j ∈ owner_idx.
Proof.
  intros Hpre.
  pose proof (length_owner_coords owner_idx) as Hlen.
  pose proof (owner_coords_increasing owner_idx) as Hsorted.
  pose proof (elem_of_owner_coords owner_idx) as Hel.
  assert (owner_coords owner_idx = seqZ 0 (Z.of_nat (n_owners owner_idx)))
    as Hseq.
  { rewrite <- Hlen. apply strictly_sorted_full; [done|].
    rewrite Hlen. apply List.Forall_forall. intros x Hx.
    apply list_elem_of_In, Hel, list_elem_of_In in Hx.
    pose proof (proj1 (List.Forall_forall _ _) Hpre x Hx). cbn in *. lia. }
  split; [done|].
  intros j Hj. apply Hel. rewrite Hseq. apply elem_of_seqZ. lia.
Qed.

Lemma owner_coords_contiguous_witness :
  owner_coords [2; 0; 2; 1; 0]%Z = seqZ 0 (Z.of_nat (n_owners [2; 0; 2; 1; 0]%Z)) /\
  forall j, (0 <= j < Z.of_nat (n_owners [2; 0; 2; 1; 0]%Z))%Z ->
            j ∈ [2; 0; 2; 1; 0]%Z.
Proof.
  apply (owner_coords_contiguous [2; 0; 2; 1; 0]%Z).
  repeat constructor; cbn; lia.
Defined.

(** ** Shop and owner probabilities *)







(** ** The shape of Neal's funnel *)









(** ** The transform at a zero scale, and away from it *)

Lemma bnth_In (t : tensor R) (i : nat) :
  (i < size (shape t))%nat \/ size (shape t) = 1%nat ->
  In (bnth 0 t i) (elements t).
Proof.
  intros Hi. destruct t as [x|xs]; [by left|]. cbn [elements].
  destruct Hi as [Hi|H1].
  - rewrite bnth_vector by done. by apply nth_In.
  - destruct xs as [|x [|y xs]]; try done. by left.
Qed.

Lemma transform_scale_position (raw loc scale : tensor R) (s1 s : option nat)
    (i : nat) :
  broadcast_shape (shape raw) (shape scale) = Ok s1 ->
  broadcast_shape s1 (shape loc) = Ok s ->
  (i < size s)%nat ->
  (i < size (shape scale))%nat \/ size (shape scale) = 1%nat.
Proof.
  intros Hs1 Hs Hi.
  destruct (broadcast_shape_size _ _ _ Hs1) as [_ [Hc|Hc]]; [|by right].
  destruct (broadcast_shape_size _ _ _ Hs) as [[Hp|Hp] _].
  - left. lia.
  - right. lia.
Qed.

(** A scale of zero is not rejected: the transform returns [loc] at every
    position, whatever [raw] is. *)
Theorem transform_zero_scale (raw loc scale : tensor R) (s : option nat) :
  Forall (fun c => c = 0) (elements scale) ->
  transform_shape raw loc scale = Ok s ->
  exists eff, transform raw loc scale = Ok eff /\ shape eff = s /\
    array_equal eff loc = Ok true.
Proof.
  intros Hzero Hshape.
  destruct (transform_defined _ _ _ _ Hshape) as (eff & Heff & Heffs & Hnth).
  exists eff. split; [done|]. split; [done|].
  unfold transform_shape in Hshape.
  destruct (broadcast_shape (shape raw) (shape scale)) as [s1|e] eqn:Hs1;
    [cbn in Hshape|done].
  apply (array_equal_intro eff loc s).
  - rewrite Heffs. by apply (broadcast_shape_absorb_r s1).
  - intros i Hi. rewrite (Hnth i Hi).
    assert (bnth 0 scale i = 0) as ->; [|lra].
    apply (proj1 (List.Forall_forall _ _) Hzero), bnth_In.
    by apply (transform_scale_position raw loc scale s1 s).
Qed.

Lemma transform_zero_scale_witness :
  exists eff, transform (Vector [3; 4]) (Vector [5; 7]) (Scalar 0) = Ok eff /\
    shape eff = Some 2%nat /\ array_equal eff (Vector [5; 7]) = Ok true.
Proof.
  apply (transform_zero_scale (Vector [3; 4]) (Vector [5; 7]) (Scalar 0)).
  - repeat constructor.
  - reflexivity.
Defined.



(** ** The whole expression of cell 27 on the object store *)

Lemma eval_logit_p_shop_spec_witness :
  let h : gmap nat object :=
    {[ 0%nat := RealArray (Vector [1; 2; 3]);
       1%nat := RealArray (Vector [2; 3]);
       2%nat := RealArray (Vector [10; 20]);
       3%nat := IntArray [0; 1; 5]%Z ]} in
  eval_logit_p_shop h 0 1 2 3 = Raise IndexError.
Proof.
  intros h.
  apply (eval_logit_p_shop_spec h 0 1 2 3 (Vector [1; 2; 3]) (Vector [2; 3])
           (Vector [10; 20]) [0; 1; 5]%Z); reflexivity.
Defined.

(** ** The contour grid of cell 8 *)









